(** * Identity reconciliation: the [/identify] endpoint of [main.py]

    A shallow embedding of the request validation ([ContactIn]) and of the
    [identify] handler over an explicit model of the [contacts] table, and the
    properties of the handler, one theorem per property.

    The table is a list of rows in storage order together with the value of
    the primary-key sequence.  The three places where the handler talks to
    the database ([query(...).all()], [commit], [refresh]) may raise; which of
    them do is an input of the model ([Faults]).  [datetime.utcnow] is an
    input as well ([Clock]). *)

From stdpp Require Import base option list sorting strings gmap.

Open Scope string_scope.
Open Scope list_scope.
Open Scope Z_scope.

(** ** The [contacts] table *)

Module Contact.

(** [class Contact(Base)]: one row.  [email], [phone_number], [linked_id]
    and [deleted_at] are nullable; timestamps are counted in microseconds. *)
Record t := mk {
  id : Z;
  email : option string;
  phone_number : option string;
  linked_id : option Z;
  link_precedence : string;
  created_at : Z;
  updated_at : Z;
  deleted_at : option Z
}.

#[global] Instance eq_dec : EqDecision t.
Proof. solve_decision. Defined.

End Contact.

(** The table ([rows], in storage order) and the next value of the serial
    primary key. *)
Record DB := mkDB {
  rows : list Contact.t;
  next_id : Z
}.

(** The two readings of [datetime.utcnow] made for the column defaults of
    [created_at] and [updated_at] when a row is inserted. *)
Record Clock := mkClock {
  utcnow_created : Z;
  utcnow_updated : Z
}.

(** For each database call of the handler: [None] when it succeeds,
    [Some msg] when it raises an exception whose text is [msg]. *)
Record Faults := mkFaults {
  query_exn : option string;
  commit_exn : option string;
  refresh_exn : option string
}.

Definition no_faults : Faults := mkFaults None None None.

(** Session operations, recorded in the order the handler performs them. *)
Inductive Op := OpQuery | OpAdd | OpCommit | OpRefresh | OpRollback | OpClose.

(** ** Request validation *)

Module ContactIn.

Record t := mk {
  email : option string;
  phone_number : option string
}.

(** [values.get(key)]: a missing key and a JSON [null] both read as
    [None]. *)
Definition get (values : gmap string (option string)) (key : string)
  : option string :=
  match values !! key with
  | Some v => v
  | None => None
  end.

(** [validate_email_or_phone_number]: [inl msg] stands for
    [raise ValueError(msg)]. *)
Definition validate_email_or_phone_number
    (email phone_number : option string) : string + unit :=
  match email, phone_number with
  | None, None =>
      inl "At least one of email or phone_number must be provided."
  | _, _ => inr ()
  end.

(** The [pre=True] root validator: it runs on the raw values, before any
    field is looked at. *)
Definition check_email_or_phone_number
    (values : gmap string (option string))
  : string + gmap string (option string) :=
  let email := get values "email" in
  let phone_number := get values "phone_number" in
  match validate_email_or_phone_number email phone_number with
  | inl msg => inl msg
  | inr _ => inr values
  end.

(** Building the model from a request body.  The check and the
    normalisation of [EmailStr] belong to the validation library and are
    not modelled: [parse] is the program's validation for bodies whose
    email is absent, and for the others it is the root validator alone. *)
Definition parse (values : gmap string (option string)) : string + t :=
  match check_email_or_phone_number values with
  | inl msg => inl msg
  | inr values =>
      inr (mk (get values "email") (get values "phone_number"))
  end.

End ContactIn.

(** ** The response *)

(** The value under the key ["contact"].  [emails] and [phoneNumbers] are
    built with [list(set(...))], whose order is not determined by the
    program: they are kept as sets. *)
Record ClusterView := mkView {
  primaryContactId : Z;
  emails : gset string;
  phoneNumbers : gset string;
  secondaryContactIds : list Z
}.

Inductive Outcome :=
| Ok200 (contact : ClusterView)
| Http422 (msg : string)
| Http500 (detail : string).

(** What one request leaves behind: the table, the session operations
    performed, the lines written by [logger.error], and the reply. *)
Record Run := mkRun {
  db_after : DB;
  ops : list Op;
  logged : list string;
  outcome : Outcome
}.

(** ** The handler *)

(** Python truthiness of an optional string: [None] and [""] are falsy. *)
Definition truthy (s : option string) : bool :=
  match s with
  | Some s => negb (String.eqb s "")
  | None => false
  end.

(** [[s] if s else []], as a set. *)
Definition one_if_truthy (s : option string) : gset string :=
  match s with
  | Some v => if truthy s then {[ v ]} else ∅
  | None => ∅
  end.

(** [set(f(c) for c in l if f(c))]. *)
Definition truthy_set (f : Contact.t → option string) (l : list Contact.t)
  : gset string :=
  foldr (λ c acc, one_if_truthy (f c) ∪ acc) ∅ l.

(** The [or_(...)] filter of the query.  Comparing a column with Python
    [None] is rendered [IS NULL], and [column = 'v'] is not true of a NULL
    column, so each disjunct is equality of optional values. *)
Definition matches (contact_in : ContactIn.t) (c : Contact.t) : Prop :=
  Contact.email c = ContactIn.email contact_in
  ∨ Contact.phone_number c = ContactIn.phone_number contact_in.

#[global] Instance matches_dec contact_in c : Decision (matches contact_in c).
Proof. unfold matches. apply _. Defined.

(** The condition under [any(...)]: both columns equal the submitted
    values, [None] included. *)
Definition same_pair (contact_in : ContactIn.t) (c : Contact.t) : Prop :=
  Contact.email c = ContactIn.email contact_in
  ∧ Contact.phone_number c = ContactIn.phone_number contact_in.

#[global] Instance same_pair_dec contact_in c
  : Decision (same_pair contact_in c).
Proof. unfold same_pair. apply _. Defined.

(** [session.query(Contact).filter(...).all()], in storage order. *)
Definition query_all (db : DB) (contact_in : ContactIn.t) : list Contact.t :=
  filter (matches contact_in) (rows db).

(** [min(c :: l, key=lambda x: x.created_at)]: the running minimum is
    replaced only by a strictly smaller key, so the first of several
    minimal elements is returned. *)
Fixpoint min_created_at (c : Contact.t) (l : list Contact.t) : Contact.t :=
  match l with
  | [] => c
  | x :: l' =>
      min_created_at
        (if bool_decide (Contact.created_at x < Contact.created_at c)
         then x else c) l'
  end.

(** The row that an INSERT of [Contact(email=..., phone_number=...,
    linked_id=..., link_precedence=...)] stores. *)
Definition new_row (clk : Clock) (db : DB)
    (email phone_number : option string) (linked_id : option Z)
    (link_precedence : string) : Contact.t :=
  Contact.mk (next_id db) email phone_number linked_id link_precedence
             (utcnow_created clk) (utcnow_updated clk) None.

(** [session.add(c); session.commit(); session.refresh(c)].  The result is
    the table afterwards, the operations performed, and either the text of
    the exception raised or the refreshed row.  A failed refresh comes
    after the commit.  A commit that raises is taken to have been refused
    as a whole: no row is stored, and the sequence value that a flushed
    INSERT may have consumed is not accounted for; the properties below
    that speak of a raising commit speak of the rows only, or leave that
    path out. *)
Definition add_commit_refresh (f : Faults) (clk : Clock) (db : DB)
    (email phone_number : option string) (linked_id : option Z)
    (link_precedence : string) : DB * list Op * (string + Contact.t) :=
  match commit_exn f with
  | Some e => (db, [OpAdd; OpCommit], inl e)
  | None =>
      let c := new_row clk db email phone_number linked_id link_precedence in
      let db' := mkDB (rows db ++ [c]) (next_id db + 1) in
      match refresh_exn f with
      | Some e => (db', [OpAdd; OpCommit; OpRefresh], inl e)
      | None => (db', [OpAdd; OpCommit; OpRefresh], inr c)
      end
  end.

(** The [except Exception as e] branch followed by [finally]. *)
Definition on_exception (db : DB) (done : list Op) (e : string) : Run :=
  mkRun db (done ++ [OpRollback; OpClose])
        ["Error occurred: " +:+ e]
        (Http500 "Internal server error").

(** The normal exit through [finally]. *)
Definition on_return (db : DB) (done : list Op) (v : ClusterView) : Run :=
  mkRun db (done ++ [OpClose]) [] (Ok200 v).

(** The [response] dictionary of the second branch. *)
Definition response (primary_contact : Contact.t)
    (secondary_contacts : list Contact.t) : ClusterView :=
  mkView (Contact.id primary_contact)
         (truthy_set Contact.email (primary_contact :: secondary_contacts))
         (truthy_set Contact.phone_number
                     (primary_contact :: secondary_contacts))
         (Contact.id <$> secondary_contacts).

(** The handler.  The database calls that may raise here are the query,
    the commit and the refresh.  Two further calls of the session can raise
    in the program and have no fault in [Faults]: [session.close()] in
    [finally], and the reload of rows expired by the commit when the
    response is built.  Neither changes the table; the properties below
    that speak of replies to failed calls are stated so that they hold of
    those paths as well. *)
Definition identify (f : Faults) (clk : Clock) (db : DB)
    (contact_in : ContactIn.t) : Run :=
  match query_exn f with
  | Some e => on_exception db [OpQuery] e
  | None =>
      let existing_contacts := query_all db contact_in in
      match existing_contacts with
      | [] =>
          let '(db', done, r) :=
            add_commit_refresh f clk db (ContactIn.email contact_in)
              (ContactIn.phone_number contact_in) None "primary" in
          match r with
          | inl e => on_exception db' (OpQuery :: done) e
          | inr new_contact =>
              on_return db' (OpQuery :: done)
                (mkView (Contact.id new_contact)
                        (one_if_truthy (Contact.email new_contact))
                        (one_if_truthy (Contact.phone_number new_contact))
                        [])
          end
      | c0 :: others =>
          let primary_contact := min_created_at c0 others in
          let secondary_contacts :=
            filter (λ c, Contact.id c ≠ Contact.id primary_contact)
                   existing_contacts in
          if decide (Exists (same_pair contact_in) existing_contacts)
          then on_return db [OpQuery]
                 (response primary_contact secondary_contacts)
          else
            let '(db', done, r) :=
              add_commit_refresh f clk db (ContactIn.email contact_in)
                (ContactIn.phone_number contact_in)
                (Some (Contact.id primary_contact)) "secondary" in
            match r with
            | inl e => on_exception db' (OpQuery :: done) e
            | inr new_secondary_contact =>
                on_return db' (OpQuery :: done)
                  (response primary_contact
                     (secondary_contacts ++ [new_secondary_contact]))
            end
      end
  end.

(** [POST /identify]: the body is validated first; the handler runs only on
    a valid [ContactIn]. *)
Definition post_identify (f : Faults) (clk : Clock) (db : DB)
    (values : gmap string (option string)) : Run :=
  match ContactIn.parse values with
  | inl msg => mkRun db [] [] (Http422 msg)
  | inr contact_in => identify f clk db contact_in
  end.

(** ** The rows the handler inserts *)

(** The row stored when nothing matched. *)
Definition new_primary (clk : Clock) (db : DB) (contact_in : ContactIn.t)
  : Contact.t :=
  new_row clk db (ContactIn.email contact_in)
    (ContactIn.phone_number contact_in) None "primary".

(** The row stored when rows matched but none carries the pair. *)
Definition new_secondary (clk : Clock) (db : DB) (contact_in : ContactIn.t)
    (primary_contact : Contact.t) : Contact.t :=
  new_row clk db (ContactIn.email contact_in)
    (ContactIn.phone_number contact_in)
    (Some (Contact.id primary_contact)) "secondary".

(** The table after the insertion of [c]. *)
Definition inserted (db : DB) (c : Contact.t) : DB :=
  mkDB (rows db ++ [c]) (next_id db + 1).

(** ** Runs of requests *)

(** A run of requests, one after the other, each with its own faults and
    clock readings. *)
Definition Request : Type := Faults * Clock * ContactIn.t.

Fixpoint serve (db : DB) (reqs : list Request) : DB :=
  match reqs with
  | [] => db
  | (f, clk, contact_in) :: reqs' =>
      serve (db_after (identify f clk db contact_in)) reqs'
  end.


(** ** Conditions on the table *)

(** The primary key is strictly increasing along the storage order, and the
    sequence is ahead of every stored key. *)
Definition ids_ascending (l : list Contact.t) : Prop :=
  StronglySorted (λ a b, Contact.id a < Contact.id b) l.

Definition ids_below (db : DB) : Prop :=
  ∀ c, c ∈ rows db → Contact.id c < next_id db.

Definition db_ok (db : DB) : Prop :=
  ids_ascending (rows db) ∧ ids_below db.


(** What the handler maintains about links: a row is a primary without a
    link, or a secondary whose link names a row stored before it. *)
Definition link_ok (l : list Contact.t) (c : Contact.t) : Prop :=
  (Contact.link_precedence c = "primary" ∧ Contact.linked_id c = None)
  ∨ (Contact.link_precedence c = "secondary"
     ∧ ∃ p, p ∈ l ∧ Contact.linked_id c = Some (Contact.id p)
            ∧ Contact.id p < Contact.id c).

Definition links_ok (db : DB) : Prop :=
  ids_below db ∧ ∀ c, c ∈ rows db → link_ok (rows db) c.

(** ** The notions of the specification *)

(** Two contacts share an identifier: the same email, or the same phone
    number. *)
Definition share (a b : Contact.t) : Prop :=
  (∃ e, Contact.email a = Some e ∧ Contact.email b = Some e)
  ∨ (∃ p, Contact.phone_number a = Some p ∧ Contact.phone_number b = Some p).

(** Cluster membership: the reflexive and transitive closure of [share]
    over the stored rows ([share] is symmetric). *)
Inductive same_cluster (l : list Contact.t) : Contact.t → Contact.t → Prop :=
| same_cluster_refl c : c ∈ l → same_cluster l c c
| same_cluster_step a b c :
    a ∈ l → b ∈ l → share a b → same_cluster l b c → same_cluster l a c.

(** The invariant of the data model, in the specification's words: each
    cluster has one primary without a link, and every other member is a
    secondary linked to it. *)
Definition spec_one_primary_per_cluster (l : list Contact.t) : Prop :=
  ∀ c, c ∈ l →
    ∃ p, p ∈ l ∧ same_cluster l c p
         ∧ Contact.link_precedence p = "primary"
         ∧ Contact.linked_id p = None
         ∧ ∀ m, m ∈ l → same_cluster l c m → m ≠ p →
                Contact.link_precedence m = "secondary"
                ∧ Contact.linked_id m = Some (Contact.id p).


(** The exact-pair match of the specification's glossary: every submitted
    field that is present equals the stored one. *)
Definition spec_exact_pair (contact_in : ContactIn.t) (c : Contact.t) : Prop :=
  (∀ e, ContactIn.email contact_in = Some e → Contact.email c = Some e)
  ∧ (∀ p, ContactIn.phone_number contact_in = Some p →
          Contact.phone_number c = Some p).

(** The creation rule in the specification's words: a secondary is
    inserted exactly when no contact of the matched cluster is an
    exact-pair match. *)
Definition spec_secondary_iff_no_exact_pair (db : DB)
    (contact_in : ContactIn.t) (after : DB) : Prop :=
  (∃ c, rows after = rows db ++ [c]
        ∧ Contact.link_precedence c = "secondary")
  ↔ ¬ ∃ m c, m ∈ query_all db contact_in
             ∧ same_cluster (rows db) m c
             ∧ spec_exact_pair contact_in c.

(** The response of the specification covers the whole cluster of the
    reported primary: every email and phone number of a member is listed,
    and so is the id of every member that is not a primary. *)
Definition spec_view_covers_cluster (l : list Contact.t) (v : ClusterView)
  : Prop :=
  ∀ p c, p ∈ l → Contact.id p = primaryContactId v → same_cluster l p c →
    (∀ e, Contact.email c = Some e → e ≠ "" → e ∈ emails v)
    ∧ (∀ n, Contact.phone_number c = Some n → n ≠ "" → n ∈ phoneNumbers v)
    ∧ (Contact.link_precedence c ≠ "primary" →
       Contact.id c ∈ secondaryContactIds v).


(** ** Concrete tables used in the examples *)

Definition t1 : Clock := mkClock 1000 1001.
Definition t2 : Clock := mkClock 2000 2001.
Definition t3 : Clock := mkClock 3000 3001.

Definition empty_db : DB := mkDB [] 1.

Definition alice : ContactIn.t := ContactIn.mk (Some "a@x.io") (Some "111").
Definition bob : ContactIn.t := ContactIn.mk (Some "b@x.io") (Some "222").
Definition alice_mail_bob_phone : ContactIn.t :=
  ContactIn.mk (Some "a@x.io") (Some "222").
Definition alice_mail_only : ContactIn.t :=
  ContactIn.mk (Some "a@x.io") None.
Definition carol_mail_bob_phone : ContactIn.t :=
  ContactIn.mk (Some "c@x.io") (Some "222").

(** Two separate primaries: alice (id 1) and bob (id 2). *)
Definition db_two_primaries : DB :=
  Eval vm_compute in
    serve empty_db [(no_faults, t1, alice); (no_faults, t2, bob)].

(** Alice (id 1, primary) and a secondary of hers (id 2) that carries
    bob's phone number. *)
Definition db_alice_chain : DB :=
  Eval vm_compute in
    serve empty_db
      [(no_faults, t1, alice); (no_faults, t2, alice_mail_bob_phone)].

(** The rows of alice and bob in [db_two_primaries]. *)
Definition row_alice : Contact.t :=
  Contact.mk 1 (Some "a@x.io") (Some "111") None "primary" 1000 1001 None.
Definition row_bob : Contact.t :=
  Contact.mk 2 (Some "b@x.io") (Some "222") None "primary" 2000 2001 None.

(** The row stored for alice's email with bob's phone number. *)
Definition row_link : Contact.t :=
  Contact.mk 3 (Some "a@x.io") (Some "222") (Some 1) "secondary"
    3000 3001 None.

(** Alice, bob, and then alice's email with bob's phone number. *)
Definition three_requests : list Request :=
  [(no_faults, t1, alice); (no_faults, t2, bob);
   (no_faults, t3, alice_mail_bob_phone)].

(** The secondary of alice in [db_alice_chain]. *)
Definition row_alice_second : Contact.t :=
  Contact.mk 2 (Some "a@x.io") (Some "222") (Some 1) "secondary"
    2000 2001 None.

(** The reply to carol's email with bob's phone number on
    [db_alice_chain]. *)
Definition view_carol : ClusterView :=
  mkView 2 ({[ "a@x.io" ]} ∪ {[ "c@x.io" ]}) {[ "222" ]} [3].

(** The database answers the query and commits, and then drops the
    connection: [refresh] raises. *)
Definition refresh_raises : Faults :=
  mkFaults None None (Some "server closed the connection unexpectedly").

(** Alice alone (id 1). *)
Definition db_alice : DB :=
  Eval vm_compute in serve empty_db [(no_faults, t1, alice)].

(** ** A clock that steps back *)




(** ** Further notions about the handler's paths and the table *)

#[global] Instance Op_eq_dec : EqDecision Op.
Proof. solve_decision. Defined.

(** The row a call stores when it has to write: a primary when nothing
    matched, a secondary of the chosen primary otherwise. *)
Definition row_to_insert (clk : Clock) (db : DB) (contact_in : ContactIn.t)
  : Contact.t :=
  match query_all db contact_in with
  | [] => new_primary clk db contact_in
  | c0 :: others =>
      new_secondary clk db contact_in (min_created_at c0 others)
  end.

(** The reply of a call that has stored [row_to_insert]. *)
Definition reply_after_insert (clk : Clock) (db : DB)
    (contact_in : ContactIn.t) : ClusterView :=
  match query_all db contact_in with
  | [] =>
      mkView (next_id db)
             (one_if_truthy (ContactIn.email contact_in))
             (one_if_truthy (ContactIn.phone_number contact_in)) []
  | c0 :: others =>
      response (min_created_at c0 others)
        (filter (λ c, Contact.id c ≠ Contact.id (min_created_at c0 others))
                (c0 :: others)
         ++ [new_secondary clk db contact_in (min_created_at c0 others)])
  end.

(** The email and phone number of a row, as a pair. *)
Definition pair_of (c : Contact.t) : option string * option string :=
  (Contact.email c, Contact.phone_number c).

(** The submitted email and phone number, as a pair. *)
Definition pair_in (contact_in : ContactIn.t)
  : option string * option string :=
  (ContactIn.email contact_in, ContactIn.phone_number contact_in).

(** No two stored rows carry the same pair. *)
Definition pairs_unique (l : list Contact.t) : Prop :=
  NoDup (pair_of <$> l).

(** A linked row names a stored row that has its email or its phone
    number, two absent values counting as equal. *)
Definition link_shares_field (l : list Contact.t) (c : Contact.t) : Prop :=
  Contact.linked_id c = None
  ∨ ∃ p, p ∈ l ∧ Contact.linked_id c = Some (Contact.id p)
         ∧ (Contact.email p = Contact.email c
            ∨ Contact.phone_number p = Contact.phone_number c).

Definition links_share_field (l : list Contact.t) : Prop :=
  ∀ c, c ∈ l → link_shares_field l c.

(** A contact known by its email only (id 1). *)
Definition dave_mail_only : ContactIn.t :=
  ContactIn.mk (Some "d@x.io") None.
Definition row_dave : Contact.t :=
  Contact.mk 1 (Some "d@x.io") None None "primary" 1000 1001 None.
Definition db_dave : DB :=
  Eval vm_compute in serve empty_db [(no_faults, t1, dave_mail_only)].

(** ** Auxiliary facts *)

(** Case analysis on membership in a list that is written out. *)
Ltac elem_cases H :=
  repeat (apply elem_of_cons in H as [->|H]);
  [..|by apply elem_of_nil in H].


Section min_created_at_facts.

Implicit Types (c d x : Contact.t) (l : list Contact.t).

(** The minimum splits the list: strictly later rows before it, rows that
    are not earlier after it. *)
Lemma min_created_at_split c l :
  ∃ l1 l2,
    c :: l = l1 ++ min_created_at c l :: l2
    ∧ Forall (λ d, Contact.created_at (min_created_at c l)
                   < Contact.created_at d) l1
    ∧ Forall (λ d, Contact.created_at (min_created_at c l)
                   ≤ Contact.created_at d) l2.
Proof.
  revert c. induction l as [|x l IH]; intros c.
  - exists [], []. by repeat split.
  - simpl. case_bool_decide as Hlt; simpl.
    + destruct (IH x) as (l1 & l2 & Heq & H1 & H2).
      exists (c :: l1), l2. rewrite Heq. split; [done|]. split; [|done].
      constructor; [|done].
      assert (Contact.created_at (min_created_at x l)
              ≤ Contact.created_at x); [|lia].
      assert (x ∈ l1 ++ min_created_at x l :: l2) as Hx
        by (rewrite <- Heq; left).
      apply elem_of_app in Hx as [Hx|Hx].
      * rewrite Forall_forall in H1. specialize (H1 _ Hx). lia.
      * apply elem_of_cons in Hx as [<-|Hx]; [lia|].
        rewrite Forall_forall in H2. by apply H2.
    + destruct (IH c) as (l1 & l2 & Heq & H1 & H2).
      destruct l1 as [|c' l1]; simpl in Heq.
      * injection Heq as Hc Hl. exists [], (x :: l2).
        subst l2. rewrite <- Hc in H2 |- *.
        split; [done|]. split; [done|]. constructor; [lia|done].
      * injection Heq as Hc Hl. subst c'. exists (c :: x :: l1), l2.
        split; [simpl; by rewrite <- Hl|]. split; [|done].
        inversion H1 as [|? ? Hc1 Hl1]; subst.
        constructor; [done|]. constructor; [lia|done].
Qed.

Lemma min_created_at_elem c l : min_created_at c l ∈ c :: l.
Proof.
  destruct (min_created_at_split c l) as (l1 & l2 & -> & _).
  apply elem_of_app. right. left.
Qed.




End min_created_at_facts.

Section set_facts.

Lemma elem_of_one_if_truthy s e :
  e ∈ one_if_truthy s ↔ s = Some e ∧ e ≠ "".
Proof.
  destruct s as [v|]; simpl;
    [|split; [by intros ?%not_elem_of_empty | by intros [? _]]].
  destruct (String.eqb v "") eqn:Hv; simpl;
    [apply String.eqb_eq in Hv; subst v | apply String.eqb_neq in Hv].
  - split; [set_solver|]. by intros [[= <-] ?].
  - rewrite elem_of_singleton. split.
    + intros ->. done.
    + intros [[= ->] _]. done.
Qed.

Lemma elem_of_truthy_set f (l : list Contact.t) e :
  e ∈ truthy_set f l ↔ e ≠ "" ∧ ∃ c, c ∈ l ∧ f c = Some e.
Proof.
  induction l as [|x l IH]; simpl.
  - split; [set_solver|]. intros (_ & c & Hc & _). by inversion Hc.
  - rewrite elem_of_union, elem_of_one_if_truthy, IH. split.
    + intros [[Hx Hne]|(Hne & c & Hc & Hf)].
      * split; [done|]. exists x. split; [left|done].
      * split; [done|]. exists c. split; [by right|done].
    + intros (Hne & c & Hc & Hf).
      apply elem_of_cons in Hc as [->|Hc]; [by left|].
      right. split; [done|]. by exists c.
Qed.


End set_facts.

Section table_facts.

Lemma ids_ascending_filter (P : Contact.t → Prop)
    `{!∀ c, Decision (P c)} (l : list Contact.t) :
  ids_ascending l → ids_ascending (filter P l).
Proof.
  unfold ids_ascending. induction 1 as [|x l Hs IH Hx].
  - constructor.
  - rewrite filter_cons. case_decide; [|done].
    constructor; [done|].
    rewrite Forall_forall in Hx. rewrite Forall_forall.
    intros y [_ Hy]%list_elem_of_filter. by apply Hx.
Qed.

Lemma ids_ascending_snoc (l : list Contact.t) (x : Contact.t) :
  ids_ascending l →
  (∀ c, c ∈ l → Contact.id c < Contact.id x) →
  ids_ascending (l ++ [x]).
Proof.
  unfold ids_ascending. intros Hs Hx. apply StronglySorted_app_2.
  - intros a b Ha ->%list_elem_of_singleton. by apply Hx.
  - done.
  - repeat constructor.
Qed.

Lemma ids_ascending_unique (l : list Contact.t) (a b : Contact.t) :
  ids_ascending l → a ∈ l → b ∈ l →
  Contact.id a = Contact.id b → a = b.
Proof.
  unfold ids_ascending. induction 1 as [|x l Hs IH Hx].
  - by inversion 1.
  - rewrite Forall_forall in Hx.
    intros [->|Ha]%elem_of_cons [->|Hb]%elem_of_cons Heq; auto.
    + specialize (Hx _ Hb). lia.
    + specialize (Hx _ Ha). lia.
Qed.

Lemma query_all_elem db contact_in c :
  c ∈ query_all db contact_in ↔ matches contact_in c ∧ c ∈ rows db.
Proof. apply list_elem_of_filter. Qed.

(** A row with the submitted pair is found by the query. *)
Lemma same_pair_matches contact_in c :
  same_pair contact_in c → matches contact_in c.
Proof. intros [H _]. by left. Qed.

Lemma Exists_same_pair_query db contact_in :
  Exists (same_pair contact_in) (query_all db contact_in)
  ↔ Exists (same_pair contact_in) (rows db).
Proof.
  rewrite !Exists_exists. split.
  - intros (c & [_ Hc]%query_all_elem & Hp). eauto.
  - intros (c & Hc & Hp). exists c. split; [|done].
    apply query_all_elem. split; [by apply same_pair_matches|done].
Qed.

End table_facts.

(** ** The paths through the handler *)

Section paths.

Variables (clk : Clock) (db : DB) (contact_in : ContactIn.t).

Lemma identify_query_raises f e :
  query_exn f = Some e →
  identify f clk db contact_in = on_exception db [OpQuery] e.
Proof. unfold identify. by intros ->. Qed.

Lemma identify_none_matched :
  query_all db contact_in = [] →
  identify no_faults clk db contact_in
  = on_return (inserted db (new_primary clk db contact_in))
      [OpQuery; OpAdd; OpCommit; OpRefresh]
      (mkView (next_id db)
              (one_if_truthy (ContactIn.email contact_in))
              (one_if_truthy (ContactIn.phone_number contact_in)) []).
Proof. unfold identify. simpl. by intros ->. Qed.

Lemma identify_repeat f c0 others :
  query_exn f = None →
  query_all db contact_in = c0 :: others →
  Exists (same_pair contact_in) (rows db) →
  identify f clk db contact_in
  = on_return db [OpQuery]
      (response (min_created_at c0 others)
         (filter (λ c, Contact.id c
                       ≠ Contact.id (min_created_at c0 others))
                 (c0 :: others))).
Proof.
  unfold identify. intros -> Hq Hex. rewrite Hq.
  apply Exists_same_pair_query in Hex. rewrite Hq in Hex.
  by rewrite decide_True.
Qed.

Lemma identify_new_pair c0 others :
  query_all db contact_in = c0 :: others →
  ¬ Exists (same_pair contact_in) (rows db) →
  identify no_faults clk db contact_in
  = on_return (inserted db (new_secondary clk db contact_in
                        (min_created_at c0 others)))
      [OpQuery; OpAdd; OpCommit; OpRefresh]
      (response (min_created_at c0 others)
         (filter (λ c, Contact.id c
                       ≠ Contact.id (min_created_at c0 others))
                 (c0 :: others)
          ++ [new_secondary clk db contact_in
                (min_created_at c0 others)])).
Proof.
  unfold identify. simpl. intros Hq Hex. rewrite Hq.
  rewrite <- Exists_same_pair_query, Hq in Hex.
  by rewrite decide_False.
Qed.

(** Whatever the faults, the table afterwards is the table before, or the
    table before with one row at the end. *)
Lemma identify_rows f :
  db_after (identify f clk db contact_in) = db
  ∨ ∃ c, db_after (identify f clk db contact_in) = inserted db c
         ∧ Contact.id c = next_id db
         ∧ Contact.email c = ContactIn.email contact_in
         ∧ Contact.phone_number c = ContactIn.phone_number contact_in
         ∧ ((query_all db contact_in = []
             ∧ Contact.link_precedence c = "primary"
             ∧ Contact.linked_id c = None)
            ∨ (∃ c0 others,
                 query_all db contact_in = c0 :: others
                 ∧ Contact.link_precedence c = "secondary"
                 ∧ Contact.linked_id c
                   = Some (Contact.id (min_created_at c0 others)))).
Proof.
  unfold identify, add_commit_refresh.
  destruct (query_exn f); [by left|].
  destruct (query_all db contact_in) as [|c0 others] eqn:Hq.
  - destruct (commit_exn f); [by left|]. right.
    exists (new_primary clk db contact_in).
    destruct (refresh_exn f); simpl; (split; [done|]);
      repeat (split; [done|]); left; done.
  - case_decide; [by left|].
    destruct (commit_exn f); [by left|]. right.
    exists (new_secondary clk db contact_in (min_created_at c0 others)).
    destruct (refresh_exn f); simpl; (split; [done|]);
      repeat (split; [done|]); right; by exists c0, others.
Qed.

(** Without faults and with a match, the reply is built from the chosen
    primary, the other matched rows, and the row inserted, if any. *)
Lemma identify_matched c0 others :
  query_all db contact_in = c0 :: others →
  ∃ extra,
    (extra = []
     ∨ extra = [new_secondary clk db contact_in (min_created_at c0 others)])
    ∧ rows (db_after (identify no_faults clk db contact_in))
      = rows db ++ extra
    ∧ outcome (identify no_faults clk db contact_in)
      = Ok200 (response (min_created_at c0 others)
                 (filter (λ c, Contact.id c
                               ≠ Contact.id (min_created_at c0 others))
                         (c0 :: others) ++ extra)).
Proof.
  intros Hq.
  destruct (decide (Exists (same_pair contact_in) (rows db))) as [Hex|Hex].
  - exists []. rewrite (identify_repeat no_faults c0 others) by done.
    unfold on_return; cbn [db_after outcome].
    split; [by left|]. by rewrite !app_nil_r.
  - eexists. rewrite (identify_new_pair c0 others) by done.
    unfold on_return; cbn [db_after outcome rows inserted].
    split; [by right|done].
Qed.


End paths.

Section preservation.

Variables (f : Faults) (clk : Clock) (db : DB) (contact_in : ContactIn.t).

Lemma rows_kept c :
  c ∈ rows db → c ∈ rows (db_after (identify f clk db contact_in)).
Proof.
  intros Hc.
  destruct (identify_rows clk db contact_in f) as [->|(x & -> & _)];
    [done|]. simpl. apply elem_of_app. by left.
Qed.

Lemma db_ok_identify :
  db_ok db → db_ok (db_after (identify f clk db contact_in)).
Proof.
  intros [Hasc Hbelow].
  destruct (identify_rows clk db contact_in f)
    as [->|(x & -> & Hid & _)]; [done|].
  split; simpl.
  - apply ids_ascending_snoc; [done|].
    intros c Hc. rewrite Hid. by apply Hbelow.
  - intros c [Hc| ->%list_elem_of_singleton]%elem_of_app; simpl.
    + specialize (Hbelow _ Hc). lia.
    + lia.
Qed.


End preservation.

Section links.

Lemma link_ok_app l extra c : link_ok l c → link_ok (l ++ extra) c.
Proof.
  intros [Hp|(Hs & p & Hp & Hl & Hlt)]; [by left|].
  right. split; [done|]. exists p. split; [|done].
  apply elem_of_app. by left.
Qed.

Lemma links_ok_identify f clk db contact_in :
  links_ok db → links_ok (db_after (identify f clk db contact_in)).
Proof.
  intros [Hbelow Hlinks].
  destruct (identify_rows clk db contact_in f)
    as [->|(x & -> & Hid & _ & _ & Hx)]; [done|].
  split.
  - intros c [Hc| ->%list_elem_of_singleton]%elem_of_app; simpl.
    + specialize (Hbelow _ Hc). lia.
    + lia.
  - simpl. intros c [Hc| ->%list_elem_of_singleton]%elem_of_app.
    + apply link_ok_app. by apply Hlinks.
    + destruct Hx as [(_ & Hp & Hl)|(c0 & others & Hq & Hs & Hl)];
        [by left|].
      right. split; [done|].
      pose proof (min_created_at_elem c0 others) as Hk.
      rewrite <- Hq in Hk. apply query_all_elem in Hk as [_ Hk].
      exists (min_created_at c0 others). split; [|split; [done|]].
      * apply elem_of_app. by left.
      * rewrite Hid. by apply Hbelow.
Qed.

Lemma links_ok_empty : links_ok empty_db.
Proof. split; intros c Hc; by apply elem_of_nil in Hc. Qed.

End links.

Section replies.

Lemma ids_ascending_fmap (l : list Contact.t) :
  ids_ascending l → StronglySorted Z.lt (Contact.id <$> l).
Proof.
  unfold ids_ascending. induction 1 as [|x l Hs IH Hx]; simpl.
  - constructor.
  - constructor; [done|]. rewrite Forall_fmap.
    eapply Forall_impl; [exact Hx|]. by intros y Hy.
Qed.

(** The sets of a reply hold the present, non-blank values of the chosen
    primary and of the other rows, that is of all rows of [l ++ extra],
    when no other row of [l ++ extra] carries the primary's id. *)
Lemma truthy_set_response f (k : Contact.t) (l extra : list Contact.t) e :
  k ∈ l →
  (∀ c, c ∈ l ++ extra → Contact.id c = Contact.id k → c = k) →
  e ∈ truthy_set f
        (k :: filter (λ c, Contact.id c ≠ Contact.id k) l ++ extra)
  ↔ e ≠ "" ∧ ∃ c, c ∈ l ++ extra ∧ f c = Some e.
Proof.
  intros Hk Huniq. rewrite elem_of_truthy_set.
  split; intros (Hne & c & Hc & Hf); (split; [done|]); exists c;
    (split; [|done]).
  - apply elem_of_cons in Hc as [->|Hc].
    + apply elem_of_app. by left.
    + apply elem_of_app in Hc as [[_ Hc]%list_elem_of_filter|Hc];
        apply elem_of_app; [by left|by right].
  - destruct (decide (Contact.id c = Contact.id k)) as [Hid|Hid].
    + rewrite (Huniq c Hc Hid). left.
    + right. apply elem_of_app in Hc as [Hc|Hc]; apply elem_of_app.
      * left. by apply list_elem_of_filter.
      * by right.
Qed.

End replies.

Section repeats.

Variables (clk clk' : Clock) (db : DB) (contact_in : ContactIn.t).



(** After a call without faults the submitted pair is stored. *)
Lemma pair_stored_after :
  Exists (same_pair contact_in)
    (rows (db_after (identify no_faults clk db contact_in))).
Proof.
  apply Exists_exists.
  destruct (query_all db contact_in) as [|c0 others] eqn:Hq.
  - rewrite identify_none_matched by done.
    exists (new_primary clk db contact_in). split; [|done].
    simpl. apply elem_of_app. right. by left.
  - destruct (decide (Exists (same_pair contact_in) (rows db)))
      as [Hex|Hex].
    + rewrite (identify_repeat clk db contact_in no_faults c0 others)
        by done.
      by apply Exists_exists.
    + rewrite (identify_new_pair clk db contact_in c0 others) by done.
      exists (new_secondary clk db contact_in (min_created_at c0 others)).
      split; [|done]. simpl. apply elem_of_app. right. by left.
Qed.


End repeats.

Section failures.

Variables (f : Faults) (clk : Clock) (db : DB) (contact_in : ContactIn.t).

(** The reply to a failed call carries the fixed text only. *)
Lemma error_reply_is_generic detail :
  outcome (identify f clk db contact_in) = Http500 detail →
  detail = "Internal server error".
Proof.
  unfold identify, add_commit_refresh.
  destruct (query_exn f); [by intros [= <-]|].
  destruct (query_all db contact_in) as [|c0 others].
  - destruct (commit_exn f); [by intros [= <-]|].
    destruct (refresh_exn f); [by intros [= <-]|done].
  - case_decide; [done|].
    destruct (commit_exn f); [by intros [= <-]|].
    destruct (refresh_exn f); [by intros [= <-]|done].
Qed.

(** A call whose query or whose commit raises leaves the table as it
    was. *)
Lemma failure_up_to_commit_keeps_table :
  is_Some (query_exn f) ∨ is_Some (commit_exn f) →
  db_after (identify f clk db contact_in) = db.
Proof.
  unfold identify, add_commit_refresh.
  intros [[e He]|[e He]].
  - by rewrite He.
  - destruct (query_exn f); [done|]. rewrite He.
    destruct (query_all db contact_in) as [|c0 others]; [done|].
    by case_decide.
Qed.

End failures.

Section runs.

Lemma db_ok_empty : db_ok empty_db.
Proof. split; [constructor|]. intros c Hc. by apply elem_of_nil in Hc. Qed.

Lemma db_ok_serve db reqs : db_ok db → db_ok (serve db reqs).
Proof.
  revert db. induction reqs as [|[[f clk] contact_in] reqs IH]; intros db Hok.
  - done.
  - simpl. apply IH. by apply db_ok_identify.
Qed.


Lemma db_ok_alice_chain : db_ok db_alice_chain.
Proof.
  exact (db_ok_serve empty_db
           [(no_faults, t1, alice); (no_faults, t2, alice_mail_bob_phone)]
           db_ok_empty).
Qed.

End runs.

(** ** Properties of the handler *)




(** C2, as stated, fails: after the submissions of alice, of bob, and of
    alice's email with bob's phone number, the three rows form one cluster
    in which alice and bob are both primaries. *)
Lemma one_primary_counterexample :
  ¬ spec_one_primary_per_cluster (rows (serve empty_db three_requests)).
Proof.
  assert (rows (serve empty_db three_requests)
          = [row_alice; row_bob; row_link]) as ->
    by (vm_compute; reflexivity).
  set (l := [row_alice; row_bob; row_link]).
  assert (row_alice ∈ l) as Ha by (by left).
  assert (row_bob ∈ l) as Hb by (right; by left).
  assert (row_link ∈ l) as Hl by (right; right; by left).
  assert (same_cluster l row_alice row_bob) as Hab.
  { apply (same_cluster_step l row_alice row_link); try done.
    { left. by exists "a@x.io". }
    apply (same_cluster_step l row_link row_bob); try done.
    { right. by exists "222". }
    by constructor. }
  intros Hinv. destruct (Hinv row_alice Ha)
    as (p & Hp & _ & Hprec & _ & Hothers).
  unfold l in Hp. elem_cases Hp.
  - by destruct (Hothers row_bob Hb Hab).
  - destruct (Hothers row_alice Ha); [by constructor|done|done].
  - done.
Qed.

(** C2 (amended): after every identify call, whatever the faults, each
    stored contact is either a primary with linkedId null or a secondary
    whose linkedId names a stored contact with a lower id; that contact may
    itself be a secondary, and a cluster may hold several primaries. *)
Theorem links_stay_ok db reqs : links_ok db → links_ok (serve db reqs).
Proof.
  revert db. induction reqs as [|[[f clk] contact_in] reqs IH]; intros db Hok.
  - done.
  - simpl. apply IH. by apply links_ok_identify.
Qed.

Lemma links_stay_ok_witness :
  links_ok (serve empty_db three_requests).
Proof. apply links_stay_ok. exact links_ok_empty. Defined.

(** C3, as stated, fails: alice is stored with email and phone number; the
    submission of her email alone agrees with her row on every field it
    supplies, yet a secondary is inserted. *)
Lemma exact_pair_counterexample :
  ¬ spec_secondary_iff_no_exact_pair db_alice alice_mail_only
      (db_after (identify no_faults t2 db_alice alice_mail_only)).
Proof.
  intros [Hcreated _]. apply Hcreated.
  - eexists. split; [vm_compute; reflexivity|reflexivity].
  - set (a := Contact.mk 1 (Some "a@x.io") (Some "111") None "primary"
                1000 1001 None).
    assert (a ∈ rows db_alice) as Ha by (simpl; left).
    exists a, a. split; [|split].
    + apply query_all_elem. split; [by left|done].
    + by constructor.
    + split; [by intros e [= <-]|by intros p [=]].
Qed.

(** C3 (amended): when the query finds contacts, a secondary linked to the
    chosen primary is inserted if and only if no stored contact has both
    its email and its phone number equal to the submitted ones, an absent
    submitted field being equal to an absent stored field only; otherwise
    the table is left as it was and nothing is written. *)
Theorem secondary_iff_no_same_pair clk db contact_in c0 others :
  query_all db contact_in = c0 :: others →
  ((∃ c, rows (db_after (identify no_faults clk db contact_in))
         = rows db ++ [c])
   ↔ ¬ Exists (same_pair contact_in) (rows db))
  ∧ (¬ Exists (same_pair contact_in) (rows db) →
     rows (db_after (identify no_faults clk db contact_in))
     = rows db ++ [new_secondary clk db contact_in
                     (min_created_at c0 others)])
  ∧ (Exists (same_pair contact_in) (rows db) →
     db_after (identify no_faults clk db contact_in) = db
     ∧ ops (identify no_faults clk db contact_in) = [OpQuery; OpClose]).
Proof.
  intros Hq.
  destruct (decide (Exists (same_pair contact_in) (rows db))) as [Hex|Hex].
  - rewrite (identify_repeat clk db contact_in no_faults c0 others)
      by done. simpl. split; [|split]; [|done|done].
    split; [|done]. intros [c Hc] _.
    apply (f_equal length) in Hc. rewrite length_app in Hc.
    simpl in Hc. lia.
  - rewrite (identify_new_pair clk db contact_in c0 others) by done.
    simpl. split; [|split]; [|done|done].
    split; [done|]. intros _. by eexists.
Qed.

Lemma secondary_iff_no_same_pair_witness :
  ((∃ c, rows (db_after (identify no_faults t2 db_alice alice_mail_only))
         = rows db_alice ++ [c])
   ↔ ¬ Exists (same_pair alice_mail_only) (rows db_alice))
  ∧ (¬ Exists (same_pair alice_mail_only) (rows db_alice) →
     rows (db_after (identify no_faults t2 db_alice alice_mail_only))
     = rows db_alice
       ++ [new_secondary t2 db_alice alice_mail_only
             (min_created_at
                (Contact.mk 1 (Some "a@x.io") (Some "111") None "primary"
                   1000 1001 None) [])])
  ∧ (Exists (same_pair alice_mail_only) (rows db_alice) →
     db_after (identify no_faults t2 db_alice alice_mail_only) = db_alice
     ∧ ops (identify no_faults t2 db_alice alice_mail_only)
       = [OpQuery; OpClose]).
Proof.
  apply (secondary_iff_no_same_pair t2 db_alice alice_mail_only).
  vm_compute. reflexivity.
Defined.

(** C4, as stated, fails: alice (id 1) has a secondary (id 2) with bob's
    phone number; the reply to carol's email with that phone number names
    id 2 as primary and leaves out alice's phone number and the secondary
    with id 2, both of the same cluster. *)
Lemma view_counterexample :
  outcome (identify no_faults t3 db_alice_chain carol_mail_bob_phone)
  = Ok200 view_carol
  ∧ ¬ spec_view_covers_cluster
        (rows (db_after (identify no_faults t3 db_alice_chain
                           carol_mail_bob_phone)))
        view_carol.
Proof.
  split; [vm_compute; reflexivity|].
  assert (rows (db_after (identify no_faults t3 db_alice_chain
                            carol_mail_bob_phone))
          = [row_alice; row_alice_second;
             Contact.mk 3 (Some "c@x.io") (Some "222") (Some 2) "secondary"
               3000 3001 None]) as -> by (vm_compute; reflexivity).
  intros Hcov.
  destruct (Hcov row_alice_second row_alice) as (_ & Hphone & _).
  - right. by left.
  - reflexivity.
  - apply (same_cluster_step _ row_alice_second row_alice).
    + right. by left.
    + by left.
    + left. by exists "a@x.io".
    + constructor. by left.
  - specialize (Hphone "111" eq_refl). simpl in Hphone.
    assert ("111" ≠ "") as Hne by done. specialize (Hphone Hne).
    apply elem_of_singleton in Hphone. done.
Qed.

(** C4 (amended): in every reply, emails is the set, in no particular
    order, of the present and non-blank emails of the contacts that match
    the submission on email or phone number once the call is over (the
    contacts found by the query and the contact inserted, if any), not of
    the whole cluster; phoneNumbers likewise; secondaryContactIds lists the
    ids of those contacts other than the one named as primary, in storage
    order, which is ascending id order. *)
Theorem view_lists_matched_rows clk db contact_in v :
  db_ok db →
  outcome (identify no_faults clk db contact_in) = Ok200 v →
  (∀ e, e ∈ emails v
        ↔ e ≠ ""
          ∧ ∃ c, c ∈ query_all (db_after (identify no_faults clk db
                                            contact_in)) contact_in
                 ∧ Contact.email c = Some e)
  ∧ (∀ n, n ∈ phoneNumbers v
          ↔ n ≠ ""
            ∧ ∃ c, c ∈ query_all (db_after (identify no_faults clk db
                                              contact_in)) contact_in
                   ∧ Contact.phone_number c = Some n)
  ∧ secondaryContactIds v
    = Contact.id <$>
        filter (λ c, Contact.id c ≠ primaryContactId v)
          (query_all (db_after (identify no_faults clk db contact_in))
             contact_in)
  ∧ StronglySorted Z.lt (secondaryContactIds v).
Proof.
  intros Hok Hout.
  pose proof (db_ok_identify no_faults clk db contact_in Hok) as [Hasc' _].
  destruct Hok as [Hasc Hbelow].
  assert (∀ primary_contact,
            matches contact_in
              (new_row clk db (ContactIn.email contact_in)
                 (ContactIn.phone_number contact_in) primary_contact.1
                 primary_contact.2)) as Hnew by (intros ?; by left).
  destruct (query_all db contact_in) as [|c0 others] eqn:Hq.
  - (* nothing matched: the reply describes the row inserted *)
    rewrite identify_none_matched in Hout |- * by done.
    injection Hout as <-. unfold on_return; cbn [db_after].
    unfold query_all, inserted; cbn [rows].
    rewrite filter_app. fold (query_all db contact_in). rewrite Hq.
    rewrite filter_cons_True by apply (Hnew (None, "primary")).
    rewrite filter_nil. cbn [app emails phoneNumbers secondaryContactIds
      primaryContactId].
    split; [|split; [|split]].
    + intros e. rewrite elem_of_one_if_truthy. split.
      * intros [He Hne]. split; [done|]. eexists. split; [by left|done].
      * intros (Hne & c & ->%list_elem_of_singleton & Hc). done.
    + intros n. rewrite elem_of_one_if_truthy. split.
      * intros [Hn Hne]. split; [done|]. eexists. split; [by left|done].
      * intros (Hne & c & ->%list_elem_of_singleton & Hc). done.
    + rewrite filter_cons_False; [done|]. simpl. by intros H.
    + constructor.
  - (* rows matched *)
    destruct (identify_matched clk db contact_in c0 others Hq)
      as (extra & Hextra & Hrows & Hout').
    rewrite Hout' in Hout. injection Hout as <-.
    unfold query_all in Hasc' |- *. rewrite Hrows in Hasc' |- *.
    rewrite filter_app. fold (query_all db contact_in). rewrite Hq.
    set (k := min_created_at c0 others) in *.
    assert (k ∈ c0 :: others) as Hk by apply min_created_at_elem.
    assert (k ∈ rows db) as Hk'.
    { rewrite <- Hq in Hk. by apply query_all_elem in Hk as [_ ?]. }
    assert (filter (matches contact_in) extra = extra) as Hfe.
    { destruct Hextra as [->| ->]; [done|].
      rewrite filter_cons_True; [done|].
      apply (Hnew (Some (Contact.id k), "secondary")). }
    assert (filter (λ c, Contact.id c ≠ Contact.id k) extra = extra) as Hfk.
    { destruct Hextra as [->| ->]; [done|].
      rewrite filter_cons_True; [done|].
      simpl. specialize (Hbelow _ Hk'). lia. }
    rewrite Hfe.
    assert (∀ c, c ∈ (c0 :: others) ++ extra →
                 Contact.id c = Contact.id k → c = k) as Huniq.
    { intros c Hc Hid.
      apply (ids_ascending_unique (rows db ++ extra)); try done.
      - apply elem_of_app in Hc as [Hc|Hc]; apply elem_of_app;
          [left|by right].
        rewrite <- Hq in Hc. by apply query_all_elem in Hc as [_ ?].
      - apply elem_of_app. by left. }
    unfold response;
      cbn [emails phoneNumbers secondaryContactIds primaryContactId].
    split; [|split; [|split]].
    + intros e. by apply truthy_set_response.
    + intros n. by apply truthy_set_response.
    + by rewrite filter_app, Hfk.
    + apply ids_ascending_fmap.
      replace (filter (λ c, Contact.id c ≠ Contact.id k) (c0 :: others)
               ++ extra)
        with (filter (λ c, Contact.id c ≠ Contact.id k)
                (filter (matches contact_in) (rows db ++ extra))).
      * by do 2 apply ids_ascending_filter.
      * rewrite filter_app. fold (query_all db contact_in).
        by rewrite Hq, Hfe, filter_app, Hfk.
Qed.

Lemma view_lists_matched_rows_witness :
  (∀ e, e ∈ emails view_carol
        ↔ e ≠ ""
          ∧ ∃ c, c ∈ query_all
                       (db_after (identify no_faults t3 db_alice_chain
                                    carol_mail_bob_phone))
                       carol_mail_bob_phone
                 ∧ Contact.email c = Some e)
  ∧ (∀ n, n ∈ phoneNumbers view_carol
          ↔ n ≠ ""
            ∧ ∃ c, c ∈ query_all
                         (db_after (identify no_faults t3 db_alice_chain
                                      carol_mail_bob_phone))
                         carol_mail_bob_phone
                   ∧ Contact.phone_number c = Some n)
  ∧ secondaryContactIds view_carol
    = Contact.id <$>
        filter (λ c, Contact.id c ≠ primaryContactId view_carol)
          (query_all (db_after (identify no_faults t3 db_alice_chain
                                  carol_mail_bob_phone))
             carol_mail_bob_phone)
  ∧ StronglySorted Z.lt (secondaryContactIds view_carol).
Proof.
  apply (view_lists_matched_rows t3 db_alice_chain carol_mail_bob_phone
           view_carol).
  - exact db_ok_alice_chain.
  - vm_compute. reflexivity.
Defined.









(** C8: a submission in which email and phone number are both absent is
    rejected with the validation error; no session operation is performed
    and the table is left as it was, whatever the state of the database. *)
Theorem both_absent_rejected f clk db values :
  ContactIn.get values "email" = None →
  ContactIn.get values "phone_number" = None →
  post_identify f clk db values
  = mkRun db [] []
      (Http422 "At least one of email or phone_number must be provided.").
Proof.
  intros He Hp. unfold post_identify, ContactIn.parse,
    ContactIn.check_email_or_phone_number. by rewrite He, Hp.
Qed.

Lemma both_absent_rejected_witness :
  post_identify (mkFaults (Some "down") (Some "down") (Some "down")) t3
    db_two_primaries {[ "email" := None ]}
  = mkRun db_two_primaries [] []
      (Http422 "At least one of email or phone_number must be provided.").
Proof. apply both_absent_rejected; vm_compute; reflexivity. Defined.

(** C9, at the input on which the code departs from it: the commit of the
    first contact succeeds and the refresh that follows raises; the caller
    is told of an internal error, in the fixed words, and the contact is
    stored all the same. *)
Theorem refresh_failure_leaves_row :
  outcome (identify refresh_raises t1 empty_db alice)
  = Http500 "Internal server error"
  ∧ ops (identify refresh_raises t1 empty_db alice)
    = [OpQuery; OpAdd; OpCommit; OpRefresh; OpRollback; OpClose]
  ∧ rows (db_after (identify refresh_raises t1 empty_db alice))
    = [row_alice]
  ∧ rows (db_after (identify refresh_raises t1 empty_db alice))
    ≠ rows empty_db.
Proof. repeat split. by vm_compute. Qed.

(** C10: every row that was stored before a call of identify is stored
    afterwards with all its fields as they were; the handler only inserts:
    the table afterwards is the table before followed by at most one new
    row, whatever the faults. *)
Theorem identify_only_inserts f clk db contact_in :
  ∃ extra,
    rows (db_after (identify f clk db contact_in)) = rows db ++ extra
    ∧ (length extra ≤ 1)%nat.
Proof.
  destruct (identify_rows clk db contact_in f) as [Hsame|(c & -> & _)].
  - exists []. rewrite Hsame, app_nil_r. split; [done|]. simpl. lia.
  - exists [c]. split; [done|]. simpl. lia.
Qed.

(** ** Further properties of the handler *)

Section all_paths.

Variables (f : Faults) (clk : Clock) (db : DB) (contact_in : ContactIn.t).

(** The five ways through the handler: the query raises; the pair is
    stored already; the commit raises; the refresh raises; the row is
    stored and the reply built. *)
Lemma identify_cases :
  (∃ e, query_exn f = Some e
        ∧ identify f clk db contact_in = on_exception db [OpQuery] e)
  ∨ (query_exn f = None
     ∧ Exists (same_pair contact_in) (rows db)
     ∧ ∃ c0 others,
         query_all db contact_in = c0 :: others
         ∧ identify f clk db contact_in
           = on_return db [OpQuery]
               (response (min_created_at c0 others)
                  (filter (λ c, Contact.id c
                                ≠ Contact.id (min_created_at c0 others))
                          (c0 :: others))))
  ∨ (query_exn f = None
     ∧ ¬ Exists (same_pair contact_in) (rows db)
     ∧ ∃ e, commit_exn f = Some e
            ∧ identify f clk db contact_in
              = on_exception db [OpQuery; OpAdd; OpCommit] e)
  ∨ (query_exn f = None
     ∧ ¬ Exists (same_pair contact_in) (rows db)
     ∧ commit_exn f = None
     ∧ ∃ e, refresh_exn f = Some e
            ∧ identify f clk db contact_in
              = on_exception
                  (inserted db (row_to_insert clk db contact_in))
                  [OpQuery; OpAdd; OpCommit; OpRefresh] e)
  ∨ (query_exn f = None
     ∧ ¬ Exists (same_pair contact_in) (rows db)
     ∧ commit_exn f = None ∧ refresh_exn f = None
     ∧ identify f clk db contact_in
       = on_return (inserted db (row_to_insert clk db contact_in))
           [OpQuery; OpAdd; OpCommit; OpRefresh]
           (reply_after_insert clk db contact_in)).
Proof.
  unfold identify, add_commit_refresh, row_to_insert, reply_after_insert.
  destruct (query_exn f) as [e|]; [left; by exists e|]. right.
  destruct (query_all db contact_in) as [|c0 others] eqn:Hq.
  - assert (¬ Exists (same_pair contact_in) (rows db)) as Hex.
    { rewrite <- Exists_same_pair_query, Hq. by intros ?%Exists_nil. }
    right.
    destruct (commit_exn f) as [e|]; [left; split; [done|]; split; [done|];
                                      by exists e|]. right.
    destruct (refresh_exn f) as [e|].
    + left. do 3 (split; [done|]). by exists e.
    + right. by do 4 (split; [done|]).
  - case_decide as Hex; rewrite <- Hq, Exists_same_pair_query in Hex.
    + left. do 2 (split; [done|]). by exists c0, others.
    + right.
      destruct (commit_exn f) as [e|]; [left; split; [done|];
                                        split; [done|]; by exists e|].
      right. destruct (refresh_exn f) as [e|].
      * left. do 3 (split; [done|]). by exists e.
      * right. by do 4 (split; [done|]).
Qed.

End all_paths.

Section inserted_row.

Variables (clk : Clock) (db : DB) (contact_in : ContactIn.t).

Lemma row_to_insert_pair :
  same_pair contact_in (row_to_insert clk db contact_in).
Proof. unfold row_to_insert. by destruct (query_all db contact_in). Qed.

Lemma row_to_insert_id :
  Contact.id (row_to_insert clk db contact_in) = next_id db.
Proof. unfold row_to_insert. by destruct (query_all db contact_in). Qed.

(** The row stored is a primary without a link, or a secondary linked to a
    stored row that the query found. *)
Lemma row_to_insert_link :
  Contact.linked_id (row_to_insert clk db contact_in) = None
  ∨ ∃ k, k ∈ rows db ∧ matches contact_in k
         ∧ Contact.linked_id (row_to_insert clk db contact_in)
           = Some (Contact.id k).
Proof.
  unfold row_to_insert.
  destruct (query_all db contact_in) as [|c0 others] eqn:Hq; [by left|].
  right. exists (min_created_at c0 others).
  pose proof (min_created_at_elem c0 others) as Hk.
  rewrite <- Hq in Hk. apply query_all_elem in Hk as [Hm Hk]. done.
Qed.

End inserted_row.

(** X1: a request body whose email is absent and whose phone number is
    present, be it a blank string, passes validation, and the handler runs
    on no email and exactly that phone number; a missing email key and a
    null email read alike. *)
Theorem phone_only_reaches_handler f clk db values p :
  ContactIn.get values "email" = None →
  ContactIn.get values "phone_number" = Some p →
  ContactIn.parse values = inr (ContactIn.mk None (Some p))
  ∧ post_identify f clk db values
    = identify f clk db (ContactIn.mk None (Some p)).
Proof.
  intros He Hp.
  assert (ContactIn.parse values = inr (ContactIn.mk None (Some p)))
    as Hparse.
  { unfold ContactIn.parse, ContactIn.check_email_or_phone_number,
      ContactIn.validate_email_or_phone_number.
    rewrite He, Hp. simpl. by rewrite He, Hp. }
  split; [done|]. unfold post_identify. by rewrite Hparse.
Qed.

Lemma phone_only_reaches_handler_witness :
  ContactIn.parse {[ "email" := None; "phone_number" := Some "" ]}
  = inr (ContactIn.mk None (Some ""))
  ∧ post_identify no_faults t1 empty_db
      {[ "email" := None; "phone_number" := Some "" ]}
    = identify no_faults t1 empty_db (ContactIn.mk None (Some "")).
Proof.
  apply phone_only_reaches_handler; vm_compute; reflexivity.
Defined.

(** X3: a fault of the database on the path of a call is never answered
    normally: when the query raises, or when the submitted pair is not
    stored yet and the commit or the refresh raises, the reply is an
    internal error. *)
Theorem fault_on_path_is_answered_500 f clk db contact_in :
  is_Some (query_exn f)
  ∨ (¬ Exists (same_pair contact_in) (rows db)
     ∧ (is_Some (commit_exn f) ∨ is_Some (refresh_exn f))) →
  ∃ detail, outcome (identify f clk db contact_in) = Http500 detail.
Proof.
  destruct (identify_cases f clk db contact_in)
    as [(e & He & ->)
       |[(Hq & Hex & c0 & others & _ & ->)
        |[(Hq & Hex & e & He & ->)
         |[(Hq & Hex & Hc & e & He & ->)
          |(Hq & Hex & Hc & Hr & ->)]]]]; simpl; try by eexists.
  - rewrite Hq. intros [[? [=]]|[? _]]. done.
  - rewrite Hq, Hc, Hr. intros [[? [=]]|[_ [[? [=]]|[? [=]]]]].
Qed.

Lemma fault_on_path_is_answered_500_witness :
  ∃ detail,
    outcome (identify refresh_raises t1 empty_db alice) = Http500 detail.
Proof.
  apply fault_on_path_is_answered_500. right. split.
  - by intros ?%Exists_nil.
  - right. by eexists.
Defined.

(** X4: when the query and the commit succeed and no stored contact
    carries the submitted pair, the table gains one row with the submitted
    pair and the next id, also when the refresh raises afterwards; when the
    query raises, or a stored contact carries the pair already, the table
    is left exactly as it was. *)
Theorem write_when_new_pair_committed f clk db contact_in :
  (query_exn f = None ∧ commit_exn f = None
   ∧ ¬ Exists (same_pair contact_in) (rows db) →
   ∃ c, db_after (identify f clk db contact_in) = inserted db c
        ∧ same_pair contact_in c ∧ Contact.id c = next_id db)
  ∧ (is_Some (query_exn f) ∨ Exists (same_pair contact_in) (rows db) →
     db_after (identify f clk db contact_in) = db).
Proof.
  pose proof (row_to_insert_pair clk db contact_in) as Hpair.
  pose proof (row_to_insert_id clk db contact_in) as Hid.
  destruct (identify_cases f clk db contact_in)
    as [(e & He & ->)
       |[(Hq & Hex & c0 & others & _ & ->)
        |[(Hq & Hex & e & He & ->)
         |[(Hq & Hex & Hc & e & He & ->)
          |(Hq & Hex & Hc & Hr & ->)]]]]; simpl.
  - split; [|done]. rewrite He. by intros [[=] _].
  - split; [|done]. by intros (_ & _ & Hn).
  - split; [|done]. rewrite He. by intros (_ & [=] & _).
  - split; [by eexists|]. rewrite Hq. by intros [[? [=]]|?].
  - split; [by eexists|]. rewrite Hq. by intros [[? [=]]|?].
Qed.

(** X5: on every path the handler queries first and calls close last,
    once, and it commits at most once; it rolls back only on paths that
    end in an internal error, and it does roll back whenever the query
    raises, or the pair is not stored yet and the commit or the refresh
    raises. *)
Theorem session_closed_on_every_path f clk db contact_in :
  ∃ body,
    ops (identify f clk db contact_in) = OpQuery :: body ++ [OpClose]
    ∧ (OpQuery ∉ body) ∧ (OpClose ∉ body)
    ∧ (length (filter (λ o, o = OpCommit) body) ≤ 1)%nat
    ∧ (OpRollback ∈ body →
       ∃ detail, outcome (identify f clk db contact_in) = Http500 detail)
    ∧ (is_Some (query_exn f)
       ∨ (¬ Exists (same_pair contact_in) (rows db)
          ∧ (is_Some (commit_exn f) ∨ is_Some (refresh_exn f))) →
       OpRollback ∈ body).
Proof.
  destruct (identify_cases f clk db contact_in)
    as [(e & He & ->)
       |[(Hq & Hex & c0 & others & _ & ->)
        |[(Hq & Hex & e & He & ->)
         |[(Hq & Hex & Hc & e & He & ->)
          |(Hq & Hex & Hc & Hr & ->)]]]]; simpl.
  - exists [OpRollback]. do 4 (split; [compute_done|]).
    split; [intros _; by eexists|intros _; compute_done].
  - exists []. do 4 (split; [compute_done|]).
    split; [by intros ?%elem_of_nil|].
    rewrite Hq. intros [[? [=]]|[? _]]. done.
  - exists [OpAdd; OpCommit; OpRollback]. do 4 (split; [compute_done|]).
    split; [intros _; by eexists|intros _; compute_done].
  - exists [OpAdd; OpCommit; OpRefresh; OpRollback].
    do 4 (split; [compute_done|]).
    split; [intros _; by eexists|intros _; compute_done].
  - exists [OpAdd; OpCommit; OpRefresh]. do 4 (split; [compute_done|]).
    split; [intros H; exfalso; revert H; compute_done|].
    rewrite Hq, Hc, Hr. intros [[? [=]]|[_ [[? [=]]|[? [=]]]]].
Qed.

Section reply_members.

(** A row of [l ++ extra] contributes its present, non-blank value to the
    reply, provided it is the chosen primary whenever it has its id. *)
Lemma listed_in_response (g : Contact.t → option string)
    (k c : Contact.t) (l extra : list Contact.t) e :
  c ∈ l ++ extra → (Contact.id c = Contact.id k → c = k) →
  g c = Some e → e ≠ "" →
  e ∈ truthy_set g
        (k :: filter (λ x, Contact.id x ≠ Contact.id k) l ++ extra).
Proof.
  intros Hc Hk Hg Hne. apply elem_of_truthy_set. split; [done|].
  destruct (decide (Contact.id c = Contact.id k)) as [Hid|Hid].
  - exists k. split; [left|]. by rewrite <- (Hk Hid).
  - exists c. split; [|done]. right.
    apply elem_of_app in Hc as [Hc|Hc]; apply elem_of_app.
    + left. by apply list_elem_of_filter.
    + by right.
Qed.

(** The id of a row of [l ++ extra] is the primary's or is listed among
    the secondaries. *)
Lemma id_in_response (k c : Contact.t) (l extra : list Contact.t) :
  c ∈ l ++ extra →
  Contact.id c = Contact.id k
  ∨ Contact.id c
    ∈ Contact.id <$>
        (filter (λ x, Contact.id x ≠ Contact.id k) l ++ extra).
Proof.
  intros Hc.
  destruct (decide (Contact.id c = Contact.id k)) as [Hid|Hid]; [by left|].
  right. apply list_elem_of_fmap. exists c. split; [done|].
  apply elem_of_app in Hc as [Hc|Hc]; apply elem_of_app.
  - left. by apply list_elem_of_filter.
  - by right.
Qed.

End reply_members.

(** X6: in a reply, the id named as primary is never listed among the
    secondaries, when the sequence is ahead of the stored ids. *)
Theorem primary_not_among_secondaries f clk db contact_in v :
  ids_below db →
  outcome (identify f clk db contact_in) = Ok200 v →
  primaryContactId v ∉ secondaryContactIds v.
Proof.
  intros Hbelow.
  destruct (identify_cases f clk db contact_in)
    as [(e & He & ->)
       |[(Hq & Hex & c0 & others & _ & ->)
        |[(Hq & Hex & e & He & ->)
         |[(Hq & Hex & Hc & e & He & ->)
          |(Hq & Hex & Hc & Hr & ->)]]]]; simpl; try done;
    intros [= <-].
  - simpl. intros (x & Hid & [Hne _]%list_elem_of_filter)%list_elem_of_fmap.
    by rewrite Hid in Hne.
  - unfold reply_after_insert.
    destruct (query_all db contact_in) as [|c0 others] eqn:Hall; simpl.
    + by intros ?%elem_of_nil.
    + intros (x & Hid & Hx)%list_elem_of_fmap.
      apply elem_of_app in Hx as [[Hne _]%list_elem_of_filter|Hx].
      * by rewrite Hid in Hne.
      * apply list_elem_of_singleton in Hx. subst x. simpl in Hid.
        pose proof (min_created_at_elem c0 others) as Hk.
        rewrite <- Hall in Hk. apply query_all_elem in Hk as [_ Hk].
        specialize (Hbelow _ Hk). lia.
Qed.

Lemma primary_not_among_secondaries_witness :
  primaryContactId view_carol ∉ secondaryContactIds view_carol.
Proof.
  apply (primary_not_among_secondaries no_faults t3 db_alice_chain
           carol_mail_bob_phone view_carol).
  - exact (proj2 db_ok_alice_chain).
  - vm_compute. reflexivity.
Defined.

(** X7: a reply always lists the submitted email and the submitted phone
    number, when present and not blank, provided stored ids are distinct
    and the sequence is ahead of them. *)
Theorem submitted_identifiers_listed f clk db contact_in v :
  db_ok db →
  outcome (identify f clk db contact_in) = Ok200 v →
  (∀ e, ContactIn.email contact_in = Some e → e ≠ "" → e ∈ emails v)
  ∧ (∀ n, ContactIn.phone_number contact_in = Some n → n ≠ "" →
          n ∈ phoneNumbers v).
Proof.
  intros [Hasc Hbelow].
  destruct (identify_cases f clk db contact_in)
    as [(e & He & ->)
       |[(Hq & Hex & c0 & others & Hall & ->)
        |[(Hq & Hex & e & He & ->)
         |[(Hq & Hex & Hc & e & He & ->)
          |(Hq & Hex & Hc & Hr & ->)]]]]; simpl; try done;
    intros [= <-].
  - apply Exists_exists in Hex as (c & Hc & [Hce Hcp]).
    assert (c ∈ (c0 :: others) ++ []) as Hc'.
    { rewrite app_nil_r, <- Hall. apply query_all_elem.
      split; [by left|done]. }
    assert (Contact.id c = Contact.id (min_created_at c0 others) →
            c = min_created_at c0 others) as Hk.
    { intros Hid. apply (ids_ascending_unique (rows db)); try done.
      pose proof (min_created_at_elem c0 others) as Hk.
      rewrite <- Hall in Hk. by apply query_all_elem in Hk as [_ ?]. }
    unfold response; cbn [emails phoneNumbers].
    rewrite <- (app_nil_r (filter _ (c0 :: others))).
    split; intros x Hx Hne; eapply listed_in_response; try done.
    + by rewrite Hce.
    + by rewrite Hcp.
  - unfold reply_after_insert.
    destruct (query_all db contact_in) as [|c0 others] eqn:Hall;
      cbn [emails phoneNumbers response].
    + split; intros x Hx Hne; by apply elem_of_one_if_truthy.
    + set (k := min_created_at c0 others).
      assert (k ∈ rows db) as Hk.
      { pose proof (min_created_at_elem c0 others) as Hk.
        rewrite <- Hall in Hk. by apply query_all_elem in Hk as [_ ?]. }
      split; intros x Hx Hne;
        apply (listed_in_response _ k (new_secondary clk db contact_in k));
        try done;
        try (apply elem_of_app; right; by left);
        simpl; intros Hid; specialize (Hbelow _ Hk); lia.
Qed.

Lemma submitted_identifiers_listed_witness :
  (∀ e, ContactIn.email carol_mail_bob_phone = Some e → e ≠ "" →
        e ∈ emails view_carol)
  ∧ (∀ n, ContactIn.phone_number carol_mail_bob_phone = Some n → n ≠ "" →
          n ∈ phoneNumbers view_carol).
Proof.
  apply (submitted_identifiers_listed no_faults t3 db_alice_chain
           carol_mail_bob_phone view_carol).
  - exact db_ok_alice_chain.
  - vm_compute. reflexivity.
Defined.

(** X8: over any run of requests, with any faults, the table only grows at
    its end: the table before is a prefix of the table after, and at most
    one row is added per request. *)
Theorem serve_only_appends db reqs :
  rows db `prefix_of` rows (serve db reqs)
  ∧ (length (rows (serve db reqs)) ≤ length (rows db) + length reqs)%nat.
Proof.
  revert db. induction reqs as [|[[f clk] contact_in] reqs IH]; intros db.
  - simpl. split; [done|lia].
  - simpl. destruct (IH (db_after (identify f clk db contact_in)))
      as [Hpre Hlen].
    destruct (identify_rows clk db contact_in f) as [Heq|(c & Heq & _)];
      rewrite Heq in Hpre, Hlen |- *.
    + split; [done|lia].
    + simpl in Hpre, Hlen. rewrite length_app in Hlen. simpl in Hlen.
      split; [|lia].
      etrans; [|exact Hpre]. by apply prefix_app_r.
Qed.

Section pairs.

Lemma pairs_unique_identify f clk db contact_in :
  pairs_unique (rows db) →
  pairs_unique (rows (db_after (identify f clk db contact_in))).
Proof.
  intros Huniq.
  assert (pairs_unique
            (rows (inserted db (row_to_insert clk db contact_in)))
          ∨ Exists (same_pair contact_in) (rows db)) as Hins.
  { destruct (decide (Exists (same_pair contact_in) (rows db)))
      as [Hex|Hex]; [by right|]. left.
    unfold pairs_unique, inserted; cbn [rows]. rewrite fmap_app.
    apply NoDup_app. split; [done|]. split; [|apply NoDup_singleton].
    intros pr (d & Hpr & Hd)%list_elem_of_fmap
           Hin%list_elem_of_singleton.
    apply Hex, Exists_exists. exists d. split; [done|].
    destruct (row_to_insert_pair clk db contact_in) as [He Hp].
    rewrite Hpr in Hin. unfold pair_of in Hin. injection Hin as He' Hp'.
    split; congruence. }
  destruct (identify_cases f clk db contact_in)
    as [(e & He & ->)
       |[(Hq & Hex & c0 & others & _ & ->)
        |[(Hq & Hex & e & He & ->)
         |[(Hq & Hex & Hc & e & He & ->)
          |(Hq & Hex & Hc & Hr & ->)]]]]; cbn [db_after on_exception
                                              on_return]; try done;
    by destruct Hins.
Qed.

Lemma links_share_field_identify f clk db contact_in :
  links_share_field (rows db) →
  links_share_field (rows (db_after (identify f clk db contact_in))).
Proof.
  intros Hlinks.
  assert (links_share_field
            (rows (inserted db (row_to_insert clk db contact_in))))
    as Hins.
  { unfold inserted; cbn [rows].
    intros c [Hc| ->%list_elem_of_singleton]%elem_of_app.
    - destruct (Hlinks c Hc) as [Hnone|(p & Hp & Hl & Hs)]; [by left|].
      right. exists p. split; [|done]. apply elem_of_app. by left.
    - destruct (row_to_insert_link clk db contact_in)
        as [Hnone|(k & Hk & Hm & Hl)]; [by left|].
      right. exists k. split; [apply elem_of_app; by left|].
      split; [done|].
      destruct (row_to_insert_pair clk db contact_in) as [He Hp].
      destruct Hm as [Hm|Hm]; [left|right]; congruence. }
  destruct (identify_cases f clk db contact_in)
    as [(e & He & ->)
       |[(Hq & Hex & c0 & others & _ & ->)
        |[(Hq & Hex & e & He & ->)
         |[(Hq & Hex & Hc & e & He & ->)
          |(Hq & Hex & Hc & Hr & ->)]]]]; cbn [db_after on_exception
                                              on_return]; done.
Qed.

End pairs.

(** X9: the handler never stores a pair twice: if no two stored contacts
    carry the same email and phone number, null included, this is still so
    after any run of requests, whatever the faults. *)
Theorem pairs_stay_unique db reqs :
  pairs_unique (rows db) → pairs_unique (rows (serve db reqs)).
Proof.
  revert db. induction reqs as [|[[f clk] contact_in] reqs IH]; intros db Hu.
  - done.
  - simpl. apply IH. by apply pairs_unique_identify.
Qed.

Lemma pairs_stay_unique_witness :
  pairs_unique
    (rows (serve db_alice
             [(no_faults, t2, alice); (refresh_raises, t2, bob);
              (no_faults, t3, bob); (no_faults, t3, alice_mail_only)])).
Proof.
  apply pairs_stay_unique. unfold pairs_unique. simpl.
  apply NoDup_singleton.
Defined.

(** X10: after a call that answers normally, a contact with exactly the
    submitted email and phone number is stored, and its id is in the
    reply, as the primary or among the secondaries. *)
Theorem stored_pair_named_in_reply f clk db contact_in v :
  outcome (identify f clk db contact_in) = Ok200 v →
  ∃ c, c ∈ rows (db_after (identify f clk db contact_in))
       ∧ same_pair contact_in c
       ∧ (Contact.id c = primaryContactId v
          ∨ Contact.id c ∈ secondaryContactIds v).
Proof.
  destruct (identify_cases f clk db contact_in)
    as [(e & He & ->)
       |[(Hq & Hex & c0 & others & Hall & ->)
        |[(Hq & Hex & e & He & ->)
         |[(Hq & Hex & Hc & e & He & ->)
          |(Hq & Hex & Hc & Hr & ->)]]]]; simpl; try done;
    intros [= <-].
  - apply Exists_exists in Hex as (c & Hc & Hpair).
    exists c. split; [done|]. split; [done|].
    unfold response; cbn [primaryContactId secondaryContactIds].
    rewrite <- (app_nil_r (filter _ (c0 :: others))).
    apply id_in_response. rewrite app_nil_r, <- Hall.
    apply query_all_elem. split; [by apply same_pair_matches|done].
  - exists (row_to_insert clk db contact_in).
    split; [apply elem_of_app; right; by left|].
    split; [apply row_to_insert_pair|].
    unfold row_to_insert, reply_after_insert.
    destruct (query_all db contact_in) as [|c0 others]; [by left|].
    unfold response; cbn [primaryContactId secondaryContactIds].
    apply id_in_response. apply elem_of_app. right. by left.
Qed.

Lemma stored_pair_named_in_reply_witness :
  ∃ c, c ∈ rows (db_after (identify no_faults t3 db_alice_chain
                             carol_mail_bob_phone))
       ∧ same_pair carol_mail_bob_phone c
       ∧ (Contact.id c = primaryContactId view_carol
          ∨ Contact.id c ∈ secondaryContactIds view_carol).
Proof.
  apply (stored_pair_named_in_reply no_faults t3 db_alice_chain
           carol_mail_bob_phone view_carol).
  vm_compute. reflexivity.
Defined.

(** X11: every link the handler writes goes to a stored contact that has
    the email or the phone number of the linked contact, two null values
    counting as equal; a table in which all links are so stays so over any
    run of requests. *)
Theorem links_keep_sharing_a_field db reqs :
  links_share_field (rows db) → links_share_field (rows (serve db reqs)).
Proof.
  revert db. induction reqs as [|[[f clk] contact_in] reqs IH]; intros db Hl.
  - done.
  - simpl. apply IH. by apply links_share_field_identify.
Qed.

Lemma links_keep_sharing_a_field_witness :
  links_share_field (rows (serve empty_db three_requests)).
Proof.
  apply links_keep_sharing_a_field. intros c Hc.
  by apply elem_of_nil in Hc.
Defined.

(** X12: a submission without a phone number matches every stored contact
    that has no phone number: when such a contact exists and the submitted
    email is stored nowhere, the new contact is not a primary but a
    secondary of a contact that has no phone number and another email, and
    the reply names that contact as primary. *)
Theorem email_only_joins_phoneless clk db e c :
  c ∈ rows db → Contact.phone_number c = None →
  (∀ d, d ∈ rows db → Contact.email d ≠ Some e) →
  ∃ k new v,
    k ∈ rows db ∧ Contact.phone_number k = None
    ∧ Contact.email k ≠ Some e
    ∧ rows (db_after (identify no_faults clk db
                        (ContactIn.mk (Some e) None)))
      = rows db ++ [new]
    ∧ Contact.email new = Some e ∧ Contact.phone_number new = None
    ∧ Contact.link_precedence new = "secondary"
    ∧ Contact.linked_id new = Some (Contact.id k)
    ∧ outcome (identify no_faults clk db (ContactIn.mk (Some e) None))
      = Ok200 v
    ∧ primaryContactId v = Contact.id k.
Proof.
  intros Hc Hphone Hmail.
  set (contact_in := ContactIn.mk (Some e) None).
  assert (¬ Exists (same_pair contact_in) (rows db)) as Hex.
  { intros (d & Hd & [He _])%Exists_exists. by apply (Hmail d). }
  destruct (query_all db contact_in) as [|c0 others] eqn:Hall.
  { assert (c ∈ query_all db contact_in) as Hin.
    { apply query_all_elem. split; [by right|done]. }
    rewrite Hall in Hin. by apply elem_of_nil in Hin. }
  pose proof (min_created_at_elem c0 others) as Hk.
  rewrite <- Hall in Hk. apply query_all_elem in Hk as [Hm Hk].
  rewrite (identify_new_pair clk db contact_in c0 others) by done.
  exists (min_created_at c0 others),
         (new_secondary clk db contact_in (min_created_at c0 others)).
  eexists. split; [done|].
  destruct Hm as [Hm|Hm]; [by destruct (Hmail _ Hk)|].
  split; [done|]. split; [by apply Hmail|].
  by repeat (split; [done|]).
Qed.

Lemma email_only_joins_phoneless_witness :
  ∃ k new v,
    k ∈ rows db_dave ∧ Contact.phone_number k = None
    ∧ Contact.email k ≠ Some "e@x.io"
    ∧ rows (db_after (identify no_faults t2 db_dave
                        (ContactIn.mk (Some "e@x.io") None)))
      = rows db_dave ++ [new]
    ∧ Contact.email new = Some "e@x.io" ∧ Contact.phone_number new = None
    ∧ Contact.link_precedence new = "secondary"
    ∧ Contact.linked_id new = Some (Contact.id k)
    ∧ outcome (identify no_faults t2 db_dave
                 (ContactIn.mk (Some "e@x.io") None))
      = Ok200 v
    ∧ primaryContactId v = Contact.id k.
Proof.
  apply (email_only_joins_phoneless t2 db_dave "e@x.io" row_dave).
  - simpl. by left.
  - reflexivity.
  - intros d Hd. simpl in Hd. elem_cases Hd. simpl. by intros [=].
Defined.

(** X13: a reply never lists a blank email or a blank phone number:
    contacts stored with a blank value are left out of the lists. *)
Theorem blank_never_listed f clk db contact_in v :
  outcome (identify f clk db contact_in) = Ok200 v →
  ("" ∉ emails v) ∧ ("" ∉ phoneNumbers v).
Proof.
  destruct (identify_cases f clk db contact_in)
    as [(e & He & ->)
       |[(Hq & Hex & c0 & others & Hall & ->)
        |[(Hq & Hex & e & He & ->)
         |[(Hq & Hex & Hc & e & He & ->)
          |(Hq & Hex & Hc & Hr & ->)]]]]; simpl; try done;
    intros [= <-].
  - unfold response; cbn [emails phoneNumbers].
    split; by intros [? _]%elem_of_truthy_set.
  - unfold reply_after_insert.
    destruct (query_all db contact_in) as [|c0 others];
      cbn [emails phoneNumbers response].
    + split; by intros [_ ?]%elem_of_one_if_truthy.
    + split; by intros [? _]%elem_of_truthy_set.
Qed.

Lemma blank_never_listed_witness :
  ("" ∉ emails (mkView 1 ∅ ∅ [])) ∧ ("" ∉ phoneNumbers (mkView 1 ∅ ∅ [])).
Proof.
  apply (blank_never_listed no_faults t1 empty_db
           (ContactIn.mk None (Some "")) (mkView 1 ∅ ∅ [])).
  vm_compute. reflexivity.
Defined.

(** X14: the row stored by a call that answers normally is tied to the
    primary of the reply: it is that primary itself, stored as a primary
    without a link and answered without secondaries, or it is a secondary
    whose linked_id is the primaryContactId of the reply and whose id is
    listed among the secondaries. *)
Theorem stored_row_tied_to_reply_primary f clk db contact_in v c :
  outcome (identify f clk db contact_in) = Ok200 v →
  rows (db_after (identify f clk db contact_in)) = rows db ++ [c] →
  (Contact.link_precedence c = "primary" ∧ Contact.linked_id c = None
   ∧ Contact.id c = primaryContactId v ∧ secondaryContactIds v = [])
  ∨ (Contact.link_precedence c = "secondary"
     ∧ Contact.linked_id c = Some (primaryContactId v)
     ∧ Contact.id c ∈ secondaryContactIds v).
Proof.
  destruct (identify_cases f clk db contact_in)
    as [(e & He & ->)
       |[(Hq & Hex & c0 & others & Hall & ->)
        |[(Hq & Hex & e & He & ->)
         |[(Hq & Hex & Hc & e & He & ->)
          |(Hq & Hex & Hc & Hr & ->)]]]]; simpl; try done;
    intros [= <-] Hrows.
  - apply (f_equal length) in Hrows. rewrite length_app in Hrows.
    simpl in Hrows. lia.
  - apply app_inv_head in Hrows. injection Hrows as <-.
    unfold row_to_insert, reply_after_insert.
    destruct (query_all db contact_in) as [|c0 others]; [by left|].
    right. split; [done|]. split; [done|].
    unfold response; cbn [secondaryContactIds]. rewrite fmap_app.
    apply elem_of_app. right. by left.
Qed.

Lemma stored_row_tied_to_reply_primary_witness :
  (Contact.link_precedence
     (Contact.mk 3 (Some "c@x.io") (Some "222") (Some 2) "secondary"
        3000 3001 None) = "primary"
   ∧ Contact.linked_id
       (Contact.mk 3 (Some "c@x.io") (Some "222") (Some 2) "secondary"
          3000 3001 None) = None
   ∧ Contact.id
       (Contact.mk 3 (Some "c@x.io") (Some "222") (Some 2) "secondary"
          3000 3001 None) = primaryContactId view_carol
   ∧ secondaryContactIds view_carol = [])
  ∨ (Contact.link_precedence
       (Contact.mk 3 (Some "c@x.io") (Some "222") (Some 2) "secondary"
          3000 3001 None) = "secondary"
     ∧ Contact.linked_id
         (Contact.mk 3 (Some "c@x.io") (Some "222") (Some 2) "secondary"
            3000 3001 None) = Some (primaryContactId view_carol)
     ∧ Contact.id
         (Contact.mk 3 (Some "c@x.io") (Some "222") (Some 2) "secondary"
            3000 3001 None) ∈ secondaryContactIds view_carol).
Proof.
  apply (stored_row_tied_to_reply_primary no_faults t3 db_alice_chain
           carol_mail_bob_phone view_carol).
  - vm_compute. reflexivity.
  - vm_compute. reflexivity.
Defined.

Section stored_pairs.

Lemma pairs_after_identify f clk db contact_in pr :
  pr ∈ pair_of <$> rows (db_after (identify f clk db contact_in)) →
  pr ∈ pair_of <$> rows db ∨ pr = pair_in contact_in.
Proof.
  destruct (identify_rows clk db contact_in f)
    as [->|(c & -> & _ & He & Hp & _)]; [by left|].
  unfold inserted; cbn [rows]. rewrite fmap_app.
  intros [Hpr|Hpr%list_elem_of_singleton]%elem_of_app; [by left|].
  right. rewrite Hpr. unfold pair_of, pair_in. by rewrite He, Hp.
Qed.

Lemma pair_in_after_identify clk db contact_in :
  pair_in contact_in
  ∈ pair_of <$> rows (db_after (identify no_faults clk db contact_in)).
Proof.
  pose proof (pair_stored_after clk db contact_in) as Hex.
  apply Exists_exists in Hex as (c & Hc & [He Hp]).
  apply list_elem_of_fmap. exists c. split; [|done].
  unfold pair_of, pair_in. by rewrite He, Hp.
Qed.

Lemma pairs_kept_by_serve db reqs pr :
  pr ∈ pair_of <$> rows db → pr ∈ pair_of <$> rows (serve db reqs).
Proof.
  intros (c & -> & Hc)%list_elem_of_fmap.
  apply list_elem_of_fmap. exists c. split; [done|].
  revert db Hc. induction reqs as [|[[f clk] contact_in] reqs IH];
    intros db Hc; [done|].
  simpl. apply IH. by apply rows_kept.
Qed.

End stored_pairs.

(** X15: over a run of requests, the pairs stored afterwards are pairs
    that were stored before or were submitted in the run, whatever the
    faults; and when the run has no fault, every submitted pair is stored
    afterwards. *)
Theorem stored_pairs_are_submitted_pairs db reqs :
  (∀ pr, pr ∈ pair_of <$> rows (serve db reqs) →
         pr ∈ pair_of <$> rows db
         ∨ pr ∈ (λ r : Request, pair_in r.2) <$> reqs)
  ∧ (Forall (λ r : Request, r.1.1 = no_faults) reqs →
     ∀ pr, pr ∈ (λ r : Request, pair_in r.2) <$> reqs →
           pr ∈ pair_of <$> rows (serve db reqs)).
Proof.
  split.
  - revert db. induction reqs as [|[[f clk] contact_in] reqs IH];
      intros db pr Hpr; [by left|].
    simpl in Hpr. apply IH in Hpr as [Hpr|Hpr].
    + apply pairs_after_identify in Hpr as [Hpr| ->]; [by left|].
      right. simpl. by left.
    + right. simpl. by right.
  - revert db. induction reqs as [|[[f clk] contact_in] reqs IH];
      intros db Hnf pr Hpr.
    + simpl in Hpr. by apply elem_of_nil in Hpr.
    + apply Forall_cons in Hnf as [Hf Hnf]. simpl in Hf. subst f.
      simpl in Hpr |- *. apply elem_of_cons in Hpr as [->|Hpr].
      * apply pairs_kept_by_serve, pair_in_after_identify.
      * by apply IH.
Qed.

Lemma stored_pairs_are_submitted_pairs_witness :
  pair_in alice_mail_bob_phone
  ∈ pair_of <$> rows (serve empty_db three_requests).
Proof.
  apply (stored_pairs_are_submitted_pairs empty_db three_requests).
  - unfold three_requests. repeat constructor.
  - unfold three_requests. simpl. right. right. left.
Defined.
